(** * Entropy of event logs: a shallow embedding of [entropies.py]

    The development follows [src/ConstraintBasedEventLogGenerator/src/entropies.py]:
    [convert_and_clean], [compute_entropy], [get_all_prefixes] and
    [cf_entropy_seq].

    Modelling choices, fixed once for the whole file:
    - a Python [dict] (and a [Counter]) keeps its keys in insertion order and
      the code relies on that order, so dictionaries are association lists
      read and written through [od_get] and [od_set], which keep the keys
      pairwise distinct;
    - Python exceptions are values of [PyError] threaded through the error
      monad [Err];
    - Python floats are idealised as real numbers: [count / total] is the
      real quotient and [scipy.stats.entropy] is the real-valued Shannon
      entropy of the normalised vector.  The value the code returns is the
      binary64 rounding of these, so the theorems on [compute_entropy] state
      the sign of the value, when it is zero and which calls return, and
      none gives the value of a logarithm;
    - a pandas [DataFrame] is a column store: a finite map from column labels
      to columns, plus the row index.  Column labels are strings and are
      pairwise distinct; a cell is a string, a parsed date-time or the
      missing marker, and cells are compared structurally when they serve
      as dictionary keys. *)

From Stdlib Require Import Reals Lra ZArith.
From stdpp Require Import base option list gmap strings.

(** ** Exceptions *)

Inductive PyError : Type :=
  | KeyError (label : string)
  | ZeroDivisionError
  | ValueError.

Inductive Err (A : Type) : Type :=
  | Ok (a : A)
  | Raise (e : PyError).
Arguments Ok {A} a.
Arguments Raise {A} e.

#[global] Instance Err_ret : MRet Err := fun _ a => Ok a.
#[global] Instance Err_bind : MBind Err := fun _ _ k m =>
  match m with
  | Ok a => k a
  | Raise e => Raise e
  end.

(** [for x in xs: body], the body being fallible and threading a state. *)
Fixpoint for_each {A S : Type} (body : S → A → Err S) (s : S) (xs : list A) : Err S :=
  match xs with
  | [] => Ok s
  | x :: xs => s' ← body s x; for_each body s' xs
  end.

(** [[f x for x in xs]], every [f x] being fallible. *)
Fixpoint comprehension {A B : Type} (f : A → Err B) (xs : list A) : Err (list B) :=
  match xs with
  | [] => Ok []
  | x :: xs => y ← f x; ys ← comprehension f xs; Ok (y :: ys)
  end.

(** ** Insertion-ordered dictionaries *)

Section odict.
Context {K V : Type} `{EqDecision K}.

(** [d.get(k)] as an option, [k in d] as a boolean. *)
Fixpoint od_get (d : list (K * V)) (k : K) : option V :=
  match d with
  | [] => None
  | (k', v) :: d => if decide (k' = k) then Some v else od_get d k
  end.

Definition od_mem (d : list (K * V)) (k : K) : bool :=
  bool_decide (is_Some (od_get d k)).

(** [d[k] = v]: a present key keeps its position, a new one goes last. *)
Fixpoint od_set (d : list (K * V)) (k : K) (v : V) : list (K * V) :=
  match d with
  | [] => [(k, v)]
  | (k', v') :: d => if decide (k' = k) then (k', v) :: d else (k', v') :: od_set d k v
  end.

Definition od_keys (d : list (K * V)) : list K := d.*1.
Definition od_values (d : list (K * V)) : list V := d.*2.

End odict.

(** ** [scipy.stats.entropy] and true division, over the reals *)

Definition Rsum (l : list R) : R := foldr Rplus 0%R l.

(** [scipy.special.entr]: [-x log x] for a positive [x] and [0] at [0].  A
    negative argument (minus infinity in scipy) does not arise from counts. *)
Definition entr (x : R) : R :=
  if Rlt_dec 0 x then (- x * ln x)%R else 0%R.

(** [entropy(pk, base=base)]: [pk] is normalised to sum 1, the entropies of
    the entries are summed, and the sum is divided by [log(base)]. *)
Definition et (pk : list R) (base : R) : R :=
  let s := Rsum pk in
  let pk := (fun p => (p / s)%R) <$> pk in
  (Rsum (entr <$> pk) / ln base)%R.

(** [count / total] on Python integers. *)
Definition truediv (count total : nat) : Err R :=
  if decide (total = 0) then Raise ZeroDivisionError
  else Ok (INR count / INR total)%R.

(** ** [compute_entropy] and [get_all_prefixes] *)

Section sequences.
Context {A : Type} `{EqDecision A}.

(** [Counter(iterable)]: every element bumps its count; a new element is
    inserted after the ones already seen. *)
Definition counter_add (freq : list (A * nat)) (elem : A) : list (A * nat) :=
  od_set freq elem (default 0 (od_get freq elem) + 1).

Definition Counter (iterable : list A) : list (A * nat) :=
  foldl counter_add [] iterable.

Definition compute_entropy (sequences : list (list A)) : Err R :=
  let all_symbols := concat sequences in
  let total := length all_symbols in
  let freq := Counter all_symbols in
  prob ← comprehension (fun count => truediv count total) (od_values freq);
  let entropy := et prob 10 in
  Ok entropy.

Definition get_all_prefixes (sequences : list (list A)) : list (list A) :=
  foldl (fun all_prefixes seq =>
           foldl (fun all_prefixes i => all_prefixes ++ [take i seq])
                 all_prefixes (List.seq 1 (length seq)))
        [] sequences.

End sequences.

(** ** Tables *)

(** A cell holds a string, a parsed date-time (nanoseconds since the epoch)
    or the missing marker [NaT]. *)
Inductive Cell : Type :=
  | VStr (s : string)
  | VTime (t : Z)
  | VNaT.

#[global] Instance Cell_eq_dec : EqDecision Cell.
Proof. solve_decision. Defined.

Record DataFrame : Type := mkDataFrame {
  df_index : list Z;
  df_data : gmap string (list Cell)
}.

Definition nrows (df : DataFrame) : nat := length (df_index df).

(** [col in df.columns] *)
Definition has_column (df : DataFrame) (col : string) : bool :=
  bool_decide (is_Some (df_data df !! col)).

(** Every column is as long as the index. *)
Definition well_formed (df : DataFrame) : Prop :=
  map_Forall (fun _ (vals : list Cell) => length vals = nrows df) (df_data df).

#[global] Instance well_formed_dec df : Decision (well_formed df).
Proof. unfold well_formed. apply _. Defined.

(** [df.iterrows()]: the pairs (index label, row) from top to bottom; a row
    is the Series that maps every column label to the row's value. *)
Definition iterrows (df : DataFrame) : list (Z * gmap string Cell) :=
  imap (fun i index => (index, omap (fun vals : list Cell => vals !! i) (df_data df)))
       (df_index df).

(** [row[label]] *)
Definition getitem (row : gmap string Cell) (label : string) : Err Cell :=
  match row !! label with
  | Some v => Ok v
  | None => Raise (KeyError label)
  end.

(** ** [cf_entropy_seq] *)

(** [if case_id not in cases: cases[case_id] = []] followed by
    [cases[case_id].append(activity)]. *)
Definition cases_append (cases : list (Cell * list Cell)) (case_id activity : Cell) :
    list (Cell * list Cell) :=
  let cases := if od_mem cases case_id then cases else od_set cases case_id [] in
  od_set cases case_id (default [] (od_get cases case_id) ++ [activity]).

(** The body of the loop over the rows. *)
Definition cf_row (case_id_name activity_name : string)
    (cases : list (Cell * list Cell)) (it : Z * gmap string Cell) :
    Err (list (Cell * list Cell)) :=
  let row := it.2 in
  case_id ← getitem row case_id_name;
  activity ← getitem row activity_name;
  Ok (cases_append cases case_id activity).

Definition cf_cases (log : DataFrame) (activity_name case_id_name : string) :
    Err (list (Cell * list Cell)) :=
  for_each (cf_row case_id_name activity_name) [] (iterrows log).

(** The function returns a float, or a pair when [return_sequence_count]. *)
Inductive CfResult : Type :=
  | Entropy (entropy_value : R)
  | EntropyCount (entropy_value : R) (count : nat).

Definition cf_entropy_seq (log : DataFrame) (prefix : bool)
    (activity_name case_id_name : string) (return_sequence_count : bool) :
    Err CfResult :=
  cases ← cf_cases log activity_name case_id_name;
  let sequences :=
    if prefix then get_all_prefixes (od_values cases) else od_values cases in
  entropy_value ← compute_entropy sequences;
  if return_sequence_count then Ok (EntropyCount entropy_value (length sequences))
  else Ok (Entropy entropy_value).

(** ** [convert_and_clean] *)

Definition lifecycle_col : string := "lifecycle:transition".
Definition start_col : string := "start:timestamp".
Definition end_col : string := "time:timestamp".

(** [df.reset_index(inplace=True, drop=True)]: the index becomes 0, 1, ... *)
Definition reset_index (df : DataFrame) : DataFrame :=
  mkDataFrame (Z.of_nat <$> seq 0 (nrows df)) (df_data df).

(** [df.rename(columns={old: new}, inplace=True, errors='ignore')] for one
    label.  A missing [old] is tolerated.  When [new] is already a column,
    pandas leaves two columns labelled [new]; the loop of [convert_and_clean]
    then reaches [pd.to_datetime(df[new])] with a two-column frame, which
    raises [ValueError].  Labels are distinct in this model, so the exception
    is raised where the repeated label would appear. *)
Definition rename_column (old new : string) (df : DataFrame) : Err DataFrame :=
  match df_data df !! old with
  | None => Ok df
  | Some vals =>
      if has_column df new then Raise ValueError
      else Ok (mkDataFrame (df_index df) (<[new := vals]> (delete old (df_data df))))
  end.

Section normaliser.

(** Modelled from the spec: the lifecycle-to-interval converter [convert_log]
    of [src/eventlog_utils.py], which is not among the sources.  The spec
    gives it as an external collaborator that takes a lifecycle log and
    returns a table; nothing more is assumed here. *)
Variable convert_log : DataFrame → DataFrame.

(** The string parser of pandas, taken as given.  It receives the whole
    column as well, since pandas may infer the format from the column. *)
Variable parse_datetime : list Cell → string → option Z.

(** [pd.to_datetime(arg, errors='coerce')] on a column whose timestamps
    carry no time zone: parsed values and missing markers are kept, a string
    is parsed, and a string that cannot be parsed becomes [NaT].  Time zones
    are not modelled: on a column that mixes UTC offsets, or zoned with
    unzoned values, pandas raises [ValueError] or coerces to [NaT], which
    this definition does not show.  It serves below only for what follows
    from the table operations around it. *)
Definition to_datetime (arg : list Cell) : list Cell :=
  (fun v => match v with
            | VStr s => match parse_datetime arg s with
                        | Some t => VTime t
                        | None => VNaT
                        end
            | VTime t => VTime t
            | VNaT => VNaT
            end) <$> arg.

(** [if col in df.columns: df[col] = pd.to_datetime(df[col], errors='coerce')] *)
Definition parse_column (df : DataFrame) (col : string) : DataFrame :=
  if has_column df col
  then mkDataFrame (df_index df) (alter to_datetime col (df_data df))
  else df.

(** The loop over the two timestamp columns and the final
    [df.reset_index(inplace=True, drop=True)]. *)
Definition finish (df : DataFrame) : DataFrame :=
  let df := foldl parse_column df [start_col; end_col] in
  reset_index df.

(** [df = convert_log(df)] and the renaming of its [START] and [END]. *)
Definition lifecycle_branch (df : DataFrame) : Err DataFrame :=
  df ← rename_column "START" start_col (convert_log df);
  rename_column "END" end_col df.

Definition convert_and_clean (df : DataFrame) : Err DataFrame :=
  df ← (if has_column df lifecycle_col then lifecycle_branch df else Ok df);
  Ok (finish df).

End normaliser.

(** ** Notions used to state the properties *)

Section notions.
Context {A : Type} `{EqDecision A}.

(** The distinct elements of a list, in the order of their first
    occurrence. *)
Fixpoint first_seen (l : list A) : list A :=
  match l with
  | [] => []
  | x :: l => x :: filter (fun y => y ≠ x) (first_seen l)
  end.

(** The number of distinct elements of a list. *)
Definition distinct (l : list A) : nat := length (remove_dups l).

(** How often [x] occurs in [l]. *)
Definition occurrences (x : A) (l : list A) : nat :=
  length (filter (fun y => y = x) l).

(** The empirical distribution of a population: the relative frequency of
    every distinct symbol, in first-seen order. *)
Definition probabilities (l : list A) : list R :=
  (fun x => (INR (occurrences x l) / INR (length l))%R) <$> first_seen l.

(** The non-empty prefixes of a sequence, shortest first. *)
Definition prefixes_of (s : list A) : list (list A) :=
  (fun i => take i s) <$> seq 1 (length s).

(** How often the prefixes of [s] mention [x]: a symbol is mentioned by every
    prefix that reaches its position, so the symbol heading a sequence of
    length [n] counts [n] times, the next one [n - 1] times, and so on. *)
Fixpoint prefix_weight (x : A) (s : list A) : nat :=
  match s with
  | [] => 0
  | y :: s' => (if decide (y = x) then length s else 0) + prefix_weight x s'
  end.

End notions.

(** The activities of the events of case [k], in the order of the events. *)
Definition trace_of (k : Cell) (events : list (Cell * Cell)) : list Cell :=
  (filter (fun e : Cell * Cell => e.1 = k) events).*2.

(** The mapping built by the first [n] iterations of the loop of
    [cf_entropy_seq]. *)
Definition cf_cases_upto (n : nat) (log : DataFrame) (activity_name case_id_name : string) :
    Err (list (Cell * list Cell)) :=
  for_each (cf_row case_id_name activity_name) [] (take n (iterrows log)).

(** Row [it] carries the event [e]: both lookups of the loop body succeed. *)
Definition row_event (case_id_name activity_name : string)
    (it : Z * gmap string Cell) (e : Cell * Cell) : Prop :=
  getitem it.2 case_id_name = Ok e.1 ∧ getitem it.2 activity_name = Ok e.2.

(** The loop of [cf_entropy_seq] on rows whose lookups succeed. *)
Definition group_events (events : list (Cell * Cell)) : list (Cell * list Cell) :=
  foldl (fun cases e => cases_append cases e.1 e.2) [] events.

(** The result of [cf_entropy_seq] on rows that are all read successfully. *)
Definition cf_result (prefix return_sequence_count : bool)
    (cases : list (Cell * list Cell)) : CfResult :=
  let sequences :=
    if prefix then get_all_prefixes (od_values cases) else od_values cases in
  let h := et (probabilities (concat sequences)) 10 in
  if return_sequence_count then EntropyCount h (length sequences) else Entropy h.

(** A small log used in examples: two cases, three events each. *)
Definition log_xy : DataFrame :=
  mkDataFrame [0; 1; 2; 3; 4; 5]%Z
    {[ "case:concept:name" := VStr <$> ["A"; "B"; "A"; "B"; "A"; "B"];
       "concept:name" := VStr <$> ["x"; "y"; "x"; "y"; "x"; "y"] ]}.

(** The same events with other index labels and one more column. *)
Definition log_xy_more : DataFrame :=
  mkDataFrame [10; 11; 12; 13; 14; 15]%Z
    {[ "case:concept:name" := VStr <$> ["A"; "B"; "A"; "B"; "A"; "B"];
       "concept:name" := VStr <$> ["x"; "y"; "x"; "y"; "x"; "y"];
       "org:resource" := VStr <$> ["r"; "r"; "s"; "s"; "t"; "t"] ]}.

(** A lifecycle log with raw timestamps, one of which is no date at all,
    and stand-ins for the converter and the parser to run it with. *)
Definition log_times : DataFrame :=
  mkDataFrame [7; 8; 9]%Z
    {[ "case:concept:name" := VStr <$> ["A"; "A"; "B"];
       "lifecycle:transition" := VStr <$> ["complete"; "complete"; "complete"];
       "time:timestamp" := [VStr "1970-01-01"; VStr "not a date"; VNaT] ]}.

Definition convert_log_demo (df : DataFrame) : DataFrame :=
  mkDataFrame (df_index df) (delete lifecycle_col (df_data df)).

Definition parse_demo (column : list Cell) (s : string) : option Z :=
  if decide (s = "1970-01-01") then Some 0%Z else None.

(** An interval log: no lifecycle column, timestamps partly parsed. *)
Definition log_plain : DataFrame :=
  mkDataFrame [4; 2; 9; 1]%Z
    {[ "case:concept:name" := VStr <$> ["A"; "A"; "B"; "B"];
       "concept:name" := VStr <$> ["x"; "y"; "x"; "x"];
       "time:timestamp" := [VStr "1970-01-01"; VStr "not a date"; VNaT; VTime 5] ]}.

(** What [convert_and_clean] makes of [log_plain] with the stand-in parser. *)
Definition log_plain_clean : DataFrame :=
  mkDataFrame [0; 1; 2; 3]%Z
    {[ "case:concept:name" := VStr <$> ["A"; "A"; "B"; "B"];
       "concept:name" := VStr <$> ["x"; "y"; "x"; "x"];
       "time:timestamp" := [VTime 0; VNaT; VNaT; VTime 5] ]}.

(** A stand-in converter that gives [START] and [END] columns: every row
    becomes an activity instance that starts and ends at the row's time. *)
Definition convert_log_pairs (df : DataFrame) : DataFrame :=
  let times := default [] (df_data df !! "time:timestamp") in
  mkDataFrame (df_index df)
    (<["START" := times]>
       (<["END" := times]>
          (delete "time:timestamp" (delete lifecycle_col (df_data df))))).

(** A log of three cases with one event each. *)
Definition log_single : DataFrame :=
  mkDataFrame [0; 1; 2]%Z
    {[ "case:concept:name" := VStr <$> ["A"; "B"; "C"];
       "concept:name" := VStr <$> ["x"; "y"; "x"] ]}.

(** A log with no row and no column. *)
Definition log_empty : DataFrame := mkDataFrame [] ∅.

(** A log with the usual columns and no row. *)
Definition log_no_rows : DataFrame :=
  mkDataFrame [] {[ "case:concept:name" := []; "concept:name" := [] ]}.

(** A log of one row that has no activity column. *)
Definition log_no_activity : DataFrame :=
  mkDataFrame [0%Z] {[ "case:concept:name" := [VStr "A"] ]}.

(** * Properties *)

(** ** Ordered dictionaries *)

Section odict_facts.
Context {K V : Type} `{EqDecision K}.
Implicit Types (d : list (K * V)) (k : K) (v : V).

Lemma od_get_None d k : od_get d k = None ↔ k ∉ od_keys d.
Proof.
  unfold od_keys. induction d as [|[k' v'] d IH]; simpl.
  - split; [intros _; apply not_elem_of_nil | done].
  - rewrite not_elem_of_cons. case_decide as Hk; subst.
    + split; [done | intros [? _]; done].
    + rewrite IH. split; [intros ?; split; [by intros -> | done] | by intros [_ ?]].
Qed.

Lemma od_mem_true d k : od_mem d k = true ↔ k ∈ od_keys d.
Proof.
  unfold od_mem. rewrite bool_decide_eq_true.
  destruct (od_get d k) eqn:E.
  - split; [intros _ | by eauto].
    destruct (decide (k ∈ od_keys d)) as [|Hn]; [done|].
    apply od_get_None in Hn. congruence.
  - split; [intros [? ?]; done|]. intros Hin. apply od_get_None in E. done.
Qed.

Lemma od_mem_false d k : od_mem d k = false ↔ k ∉ od_keys d.
Proof. rewrite <- od_mem_true. destruct (od_mem d k); naive_solver. Qed.

Lemma od_set_new d k v : k ∉ od_keys d → od_set d k v = d ++ [(k, v)].
Proof.
  unfold od_keys. induction d as [|[k' v'] d IH]; simpl; [done|].
  rewrite not_elem_of_cons. intros [Hne Hni].
  case_decide; [congruence|]. by rewrite IH.
Qed.

Lemma od_set_keys d k v : k ∈ od_keys d → od_keys (od_set d k v) = od_keys d.
Proof.
  unfold od_keys. induction d as [|[k' v'] d IH]; simpl.
  - by intros ?%elem_of_nil.
  - intros Hin. case_decide as Hk; subst; simpl; [done|].
    f_equal. apply IH. apply elem_of_cons in Hin as [->|?]; done.
Qed.

Lemma od_get_set d k v k' :
  od_get (od_set d k v) k' = if decide (k = k') then Some v else od_get d k'.
Proof.
  induction d as [|[k0 v0] d IH]; simpl.
  - repeat case_decide; congruence.
  - repeat (case_decide; simpl; subst); try congruence.
Qed.

Lemma od_values_length d : length (od_values d) = length (od_keys d).
Proof. unfold od_values, od_keys. by rewrite !length_fmap. Qed.

End odict_facts.

(** ** First-seen order *)

Section first_seen_facts.
Context {A : Type} `{EqDecision A}.
Implicit Types (l : list A) (x : A).

Lemma first_seen_elem_of l x : x ∈ first_seen l ↔ x ∈ l.
Proof.
  induction l as [|y l IH]; simpl; [done|].
  rewrite !elem_of_cons, list_elem_of_filter, IH.
  destruct (decide (x = y)); tauto.
Qed.

Lemma first_seen_NoDup l : NoDup (first_seen l).
Proof.
  induction l as [|y l IH]; simpl; [constructor|].
  constructor; [|by apply NoDup_filter].
  rewrite list_elem_of_filter. by intros [? _].
Qed.

Lemma first_seen_snoc l x :
  first_seen (l ++ [x]) = if decide (x ∈ l) then first_seen l else first_seen l ++ [x].
Proof.
  induction l as [|y l IH]; simpl; [done|].
  rewrite IH. destruct (decide (x ∈ l)) as [Hin|Hni].
  - rewrite decide_True by (apply elem_of_cons; by right). done.
  - rewrite filter_app, filter_cons, filter_nil.
    destruct (decide (x = y)) as [->|Hne].
    + rewrite (decide_True (P := y ∈ y :: l)) by (apply elem_of_cons; by left).
      rewrite decide_False by (by intros ?). by rewrite app_nil_r.
    + rewrite (decide_False (P := x ∈ y :: l)) by (by intros [?|?]%elem_of_cons).
      by rewrite decide_True by done.
Qed.

(** As many elements as any other duplicate-free enumeration. *)
Lemma first_seen_length l : length (first_seen l) = length (remove_dups l).
Proof.
  apply Permutation_length, NoDup_Permutation.
  - apply first_seen_NoDup.
  - apply NoDup_remove_dups.
  - intros x. by rewrite first_seen_elem_of, elem_of_remove_dups.
Qed.

End first_seen_facts.

(** ** The per-case mapping *)

Lemma od_set_set {K V : Type} `{EqDecision K} (d : list (K * V)) k v v' :
  od_set (od_set d k v) k v' = od_set d k v'.
Proof.
  induction d as [|[k0 v0] d IH]; simpl.
  - by rewrite decide_True.
  - case_decide as Hk; simpl; rewrite ?decide_True, ?decide_False by done; [done|].
    by rewrite IH.
Qed.

Lemma cases_append_new cases k a :
  k ∉ od_keys cases → cases_append cases k a = cases ++ [(k, [a])].
Proof.
  intros Hni. unfold cases_append.
  rewrite (proj2 (od_mem_false cases k) Hni).
  rewrite od_get_set, decide_True by done. simpl.
  rewrite od_set_set. by apply od_set_new.
Qed.

Lemma cases_append_old cases k a tr :
  od_get cases k = Some tr → cases_append cases k a = od_set cases k (tr ++ [a]).
Proof.
  intros Hget. unfold cases_append.
  assert (od_mem cases k = true) as ->.
  { unfold od_mem. rewrite bool_decide_eq_true, Hget. by eexists. }
  by rewrite Hget.
Qed.

Lemma trace_of_snoc k events e :
  trace_of k (events ++ [e]) =
  if decide (e.1 = k) then trace_of k events ++ [e.2] else trace_of k events.
Proof.
  unfold trace_of. rewrite filter_app, filter_cons, filter_nil.
  case_decide; simpl; by rewrite ?fmap_app, ?app_nil_r.
Qed.

Lemma trace_of_not_in k events : k ∉ events.*1 → trace_of k events = [].
Proof.
  unfold trace_of. induction events as [|e events IH]; simpl; [done|].
  rewrite not_elem_of_cons. intros [Hne Hni].
  rewrite filter_cons, decide_False by done. by apply IH.
Qed.

Lemma group_events_snoc events e :
  group_events (events ++ [e]) = cases_append (group_events events) e.1 e.2.
Proof. unfold group_events. by rewrite foldl_app. Qed.

Lemma group_events_spec events :
  od_keys (group_events events) = first_seen events.*1 ∧
  ∀ k, od_get (group_events events) k =
       if decide (k ∈ events.*1) then Some (trace_of k events) else None.
Proof.
  induction events as [|e events [IHk IHg]] using rev_ind.
  - split; [done|]. intros k. by rewrite decide_False by apply not_elem_of_nil.
  - rewrite group_events_snoc, fmap_app. simpl. rewrite first_seen_snoc.
    pose proof (IHg e.1) as He.
    destruct (decide (e.1 ∈ events.*1)) as [Hin|Hni].
    + rewrite (cases_append_old _ _ _ _ He). split.
      * rewrite od_set_keys; [done|]. rewrite IHk. by apply first_seen_elem_of.
      * intros k. rewrite od_get_set, trace_of_snoc, IHg.
        destruct (decide (e.1 = k)) as [<-|Hne].
        -- by rewrite decide_True by (apply elem_of_app; by left).
        -- destruct (decide (k ∈ events.*1)) as [Hk|Hk].
           ++ by rewrite decide_True by (apply elem_of_app; by left).
           ++ rewrite decide_False; [done|].
              intros [?|Hx%list_elem_of_singleton]%elem_of_app; done.
    + assert (e.1 ∉ od_keys (group_events events)) as Hnk.
      { rewrite IHk. by rewrite first_seen_elem_of. }
      rewrite (cases_append_new _ _ _ Hnk). split.
      * unfold od_keys in *. by rewrite fmap_app, IHk.
      * intros k. rewrite <- (od_set_new _ _ _ Hnk).
        rewrite od_get_set, trace_of_snoc, IHg.
        destruct (decide (e.1 = k)) as [<-|Hne].
        -- rewrite decide_True by (apply elem_of_app; right; by apply list_elem_of_singleton).
           by rewrite trace_of_not_in.
        -- destruct (decide (k ∈ events.*1)) as [Hk|Hk].
           ++ by rewrite decide_True by (apply elem_of_app; by left).
           ++ rewrite decide_False; [done|].
              intros [?|Hx%list_elem_of_singleton]%elem_of_app; done.
Qed.

(** ** Rows of a table *)

Lemma cf_row_event c a cases it e :
  row_event c a it e → cf_row c a cases it = Ok (cases_append cases e.1 e.2).
Proof. intros [Hc Ha]. unfold cf_row. rewrite Hc. simpl. by rewrite Ha. Qed.

Lemma for_each_cf_row c a rows events cases :
  Forall2 (row_event c a) rows events →
  for_each (cf_row c a) cases rows =
  Ok (foldl (fun cases e => cases_append cases e.1 e.2) cases events).
Proof.
  intros HF. revert cases.
  induction HF as [|it e rows events He _ IH]; intros cases; simpl; [done|].
  rewrite (cf_row_event _ _ _ _ _ He). apply IH.
Qed.

Lemma length_iterrows df : length (iterrows df) = nrows df.
Proof. unfold iterrows, nrows. by rewrite length_imap. Qed.

Lemma getitem_iterrows df i it label :
  iterrows df !! i = Some it →
  getitem it.2 label =
  match df_data df !! label ≫= (fun vals : list Cell => vals !! i) with
  | Some v => Ok v
  | None => Raise (KeyError label)
  end.
Proof.
  unfold iterrows. rewrite list_lookup_imap.
  destruct (df_index df !! i) as [index|]; simpl; [|done].
  intros [= <-]. unfold getitem. simpl. by rewrite lookup_omap.
Qed.

Lemma well_formed_length df col vals :
  well_formed df → df_data df !! col = Some vals → length vals = nrows df.
Proof. intros Hwf Hcol. exact (Hwf col vals Hcol). Qed.

Lemma iterrows_events df c a cids acts :
  well_formed df →
  df_data df !! c = Some cids →
  df_data df !! a = Some acts →
  Forall2 (row_event c a) (iterrows df) (zip cids acts).
Proof.
  intros Hwf Hc Ha.
  pose proof (well_formed_length _ _ _ Hwf Hc) as Hlc.
  pose proof (well_formed_length _ _ _ Hwf Ha) as Hla.
  apply Forall2_same_length_lookup_2.
  - rewrite length_iterrows, length_zip_with. lia.
  - intros i it e Hit He.
    apply lookup_zip_with_Some in He as (x & y & -> & Hx & Hy).
    split; rewrite (getitem_iterrows _ _ _ _ Hit).
    + rewrite Hc. simpl. by rewrite Hx.
    + rewrite Ha. simpl. by rewrite Hy.
Qed.

Lemma cf_cases_upto_all log a c : cf_cases_upto (nrows log) log a c = cf_cases log a c.
Proof.
  unfold cf_cases_upto, cf_cases.
  by rewrite firstn_all2 by (rewrite length_iterrows; lia).
Qed.

Lemma cf_cases_upto_events log a c cids acts n :
  well_formed log →
  df_data log !! c = Some cids →
  df_data log !! a = Some acts →
  cf_cases_upto n log a c = Ok (group_events (take n (zip cids acts))).
Proof.
  intros Hwf Hc Ha. unfold cf_cases_upto, group_events.
  apply for_each_cf_row. apply Forall2_take. by apply iterrows_events.
Qed.

Lemma cf_cases_events log a c cids acts :
  well_formed log →
  df_data log !! c = Some cids →
  df_data log !! a = Some acts →
  cf_cases log a c = Ok (group_events (zip cids acts)).
Proof.
  intros Hwf Hc Ha. rewrite <- cf_cases_upto_all.
  rewrite (cf_cases_upto_events _ _ _ _ _ _ Hwf Hc Ha).
  rewrite firstn_all2; [done|].
  rewrite length_zip_with.
  rewrite (well_formed_length _ _ _ Hwf Hc), (well_formed_length _ _ _ Hwf Ha). lia.
Qed.

(** ** Prefixes *)

Section prefix_facts.
Context {A : Type} `{EqDecision A}.
Implicit Types (s : list A) (sequences : list (list A)).

Lemma foldl_snoc_each {B} (f : B → list A) (acc : list (list A)) (l : list B) :
  foldl (fun acc i => acc ++ [f i]) acc l = acc ++ (f <$> l).
Proof.
  revert acc. induction l as [|i l IH]; intros acc; simpl.
  - by rewrite app_nil_r.
  - rewrite IH. by rewrite <- app_assoc.
Qed.

Lemma get_all_prefixes_from (acc : list (list A)) sequences :
  foldl (fun all_prefixes seq =>
           foldl (fun all_prefixes i => all_prefixes ++ [take i seq])
                 all_prefixes (List.seq 1 (length seq)))
        acc sequences
  = acc ++ concat (prefixes_of <$> sequences).
Proof.
  revert acc. induction sequences as [|s sequences IH]; intros acc; simpl.
  - by rewrite app_nil_r.
  - rewrite IH, foldl_snoc_each. by rewrite <- app_assoc.
Qed.

Lemma get_all_prefixes_concat sequences :
  get_all_prefixes sequences = concat (prefixes_of <$> sequences).
Proof. unfold get_all_prefixes. by rewrite get_all_prefixes_from. Qed.

Lemma length_prefixes_of s : length (prefixes_of s) = length s.
Proof. unfold prefixes_of. by rewrite length_fmap, length_seq. Qed.

Lemma lookup_prefixes_of s i :
  i < length s → prefixes_of s !! i = Some (take (S i) s).
Proof.
  intros Hi. unfold prefixes_of.
  by rewrite list_lookup_fmap, lookup_seq_lt by done.
Qed.

Lemma length_get_all_prefixes sequences :
  length (get_all_prefixes sequences) = sum_list (length <$> sequences).
Proof.
  rewrite get_all_prefixes_concat.
  induction sequences as [|s sequences IH]; csimpl; [done|].
  by rewrite length_app, length_prefixes_of, IH.
Qed.

(** C5. [get_all_prefixes] returns, for the sequences in their input order,
    one contiguous block per sequence; the block of a sequence [s] has
    [length s] entries, its entry number [i] (from 0) being the prefix of
    [s] of length [i + 1].  The result therefore has as many entries as the
    lengths of the sequences add up to. *)
Theorem get_all_prefixes_spec sequences :
  get_all_prefixes sequences = concat (prefixes_of <$> sequences) ∧
  length (get_all_prefixes sequences) = sum_list (length <$> sequences) ∧
  ∀ s, length (prefixes_of s) = length s ∧
       ∀ i, i < length s →
            prefixes_of s !! i = Some (take (S i) s) ∧
            length (take (S i) s) = S i ∧
            take (S i) s `prefix_of` s.
Proof.
  split; [apply get_all_prefixes_concat|].
  split; [apply length_get_all_prefixes|].
  intros s. split; [apply length_prefixes_of|].
  intros i Hi. split; [by apply lookup_prefixes_of|].
  split; [rewrite length_take; lia|].
  exists (drop (S i) s). by rewrite take_drop.
Qed.

End prefix_facts.

Example get_all_prefixes_abc :
  get_all_prefixes [["a"; "b"; "c"]; ["d"; "e"]]
  = [["a"]; ["a"; "b"]; ["a"; "b"; "c"]; ["d"]; ["d"; "e"]].
Proof. reflexivity. Qed.

(** ** [Counter] *)

Section counter_facts.
Context {A : Type} `{EqDecision A}.
Implicit Types (l : list A) (x : A).

Lemma occurrences_snoc x l y :
  occurrences x (l ++ [y]) = occurrences x l + (if decide (y = x) then 1 else 0).
Proof.
  unfold occurrences. rewrite filter_app, length_app, filter_cons, filter_nil.
  by case_decide.
Qed.

Lemma occurrences_not_in x l : x ∉ l → occurrences x l = 0.
Proof.
  unfold occurrences. induction l as [|y l IH]; [done|].
  rewrite not_elem_of_cons. intros [Hne Hni]. rewrite filter_cons.
  rewrite decide_False by (by intros ->). by apply IH.
Qed.

Lemma occurrences_pos x l : x ∈ l → 0 < occurrences x l.
Proof.
  unfold occurrences. induction 1 as [x l|x y l _ IH].
  - rewrite filter_cons, decide_True by done. simpl. lia.
  - rewrite filter_cons. case_decide; simpl; lia.
Qed.

Lemma Counter_snoc l x : Counter (l ++ [x]) = counter_add (Counter l) x.
Proof. unfold Counter. by rewrite foldl_app. Qed.

Lemma Counter_spec l :
  od_keys (Counter l) = first_seen l ∧
  ∀ x, od_get (Counter l) x = if decide (x ∈ l) then Some (occurrences x l) else None.
Proof.
  induction l as [|y l [IHk IHg]] using rev_ind.
  - split; [done|]. intros x. by rewrite decide_False by apply not_elem_of_nil.
  - rewrite Counter_snoc, first_seen_snoc. unfold counter_add. split.
    + destruct (decide (y ∈ l)) as [Hin|Hni].
      * rewrite od_set_keys; [done|]. rewrite IHk. by apply first_seen_elem_of.
      * rewrite od_set_new by (by rewrite IHk, first_seen_elem_of).
        unfold od_keys in *. by rewrite fmap_app, IHk.
    + intros x. rewrite od_get_set, occurrences_snoc, !IHg.
      destruct (decide (y = x)) as [->|Hne].
      * rewrite (decide_True (P := x ∈ l ++ [x]))
          by (apply elem_of_app; right; by apply list_elem_of_singleton).
        destruct (decide (x ∈ l)); simpl; [done|].
        by rewrite occurrences_not_in.
      * destruct (decide (x ∈ l)) as [Hin|Hni].
        -- rewrite decide_True by (apply elem_of_app; by left).
           by rewrite Nat.add_0_r.
        -- rewrite decide_False; [done|].
           intros [?|Hx%list_elem_of_singleton]%elem_of_app; done.
Qed.

(** The values of a dictionary, read off its keys. *)
Lemma od_values_keys {V} (d : list (A * V)) (f : A → V) :
  NoDup (od_keys d) →
  (∀ x, x ∈ od_keys d → od_get d x = Some (f x)) →
  od_values d = f <$> od_keys d.
Proof.
  unfold od_keys, od_values.
  induction d as [|[x v] d IH]; simpl; [done|].
  intros [Hni Hnd]%NoDup_cons Hget. f_equal.
  - specialize (Hget x). rewrite decide_True in Hget by done.
    assert (Some v = Some (f x)) as [= ->]; [|done].
    apply Hget. apply elem_of_cons. by left.
  - apply IH; [done|]. intros y Hy. specialize (Hget y).
    rewrite decide_False in Hget by (intros ->; done).
    apply Hget. apply elem_of_cons. by right.
Qed.

Lemma Counter_values l :
  od_values (Counter l) = (fun x => occurrences x l) <$> first_seen l.
Proof.
  destruct (Counter_spec l) as [Hk Hg]. rewrite <- Hk.
  apply od_values_keys.
  - rewrite Hk. apply first_seen_NoDup.
  - intros x Hx. rewrite Hg, decide_True; [done|].
    rewrite Hk in Hx. by apply first_seen_elem_of.
Qed.

Lemma sum_list_od_set (d : list (A * nat)) x n :
  sum_list (od_values (od_set d x n)) + default 0 (od_get d x)
  = sum_list (od_values d) + n.
Proof.
  unfold od_values. induction d as [|[y m] d IH]; csimpl; [lia|].
  case_decide; csimpl; lia.
Qed.

Lemma Counter_total l : sum_list (od_values (Counter l)) = length l.
Proof.
  induction l as [|y l IH] using rev_ind; [done|].
  rewrite Counter_snoc, length_app. unfold counter_add. simpl.
  pose proof (sum_list_od_set (Counter l) y (default 0 (od_get (Counter l) y) + 1)).
  lia.
Qed.

End counter_facts.

(** ** Sums and entropy over the reals *)

Section real_facts.
Local Open Scope R_scope.

Lemma Rsum_quotients (counts : list nat) (t : R) :
  Rsum ((fun count => INR count / t) <$> counts) = INR (sum_list counts) / t.
Proof.
  unfold Rsum. induction counts as [|c counts IH]; csimpl.
  - unfold Rdiv. lra.
  - rewrite IH, plus_INR. unfold Rdiv. lra.
Qed.

Lemma ln_10_pos : 0 < ln 10.
Proof. rewrite <- ln_1. apply ln_increasing; lra. Qed.

Lemma entr_pos (x : R) : 0 < x → entr x = - x * ln x.
Proof. intros Hx. unfold entr. destruct (Rlt_dec 0 x); [done | contradiction]. Qed.

Lemma entr_1 : entr 1 = 0.
Proof. rewrite entr_pos by lra. rewrite ln_1. lra. Qed.

(** On a vector that sums to 1 the normalisation of [et] changes nothing. *)
Lemma et_normalised (pk : list R) (base : R) :
  Rsum pk = 1 → et pk base = Rsum (entr <$> pk) / ln base.
Proof.
  intros Hs. unfold et. rewrite Hs.
  assert ((fun p => p / 1) <$> pk = pk) as ->; [|done].
  transitivity (id <$> pk); [|apply list_fmap_id].
  apply list_fmap_ext. intros i x _. unfold id, Rdiv. rewrite Rinv_1. lra.
Qed.

End real_facts.

(** ** [compute_entropy] *)

Section entropy_facts.
Context {A : Type} `{EqDecision A}.
Implicit Types (l : list A) (sequences : list (list A)).
Local Open Scope R_scope.

Lemma comprehension_truediv (total : nat) (counts : list nat) :
  total ≠ 0%nat →
  comprehension (fun count => truediv count total) counts
  = Ok ((fun count => INR count / INR total) <$> counts).
Proof.
  intros Ht. induction counts as [|c counts IH]; [done|].
  cbn [comprehension]. rewrite IH.
  unfold truediv. by rewrite decide_False by done.
Qed.

Lemma probabilities_counts l :
  (fun count => INR count / INR (length l)) <$> od_values (Counter l)
  = probabilities l.
Proof. rewrite Counter_values. unfold probabilities. by rewrite <- list_fmap_compose. Qed.

(** The division of [compute_entropy] is evaluated once per counted symbol,
    so never with a zero total: the function always returns. *)
Lemma compute_entropy_value sequences :
  compute_entropy sequences = Ok (et (probabilities (concat sequences)) 10).
Proof.
  unfold compute_entropy. set (l := concat sequences).
  destruct (decide (l = [])) as [El|Hne].
  - rewrite El. done.
  - rewrite comprehension_truediv by (by destruct l).
    simpl. by rewrite probabilities_counts.
Qed.

Lemma INR_length_pos l : l ≠ [] → 0 < INR (length l).
Proof. intros Hne. apply lt_0_INR. destruct l; [done | simpl; lia]. Qed.

Lemma probabilities_sum l : l ≠ [] → Rsum (probabilities l) = 1.
Proof.
  intros Hne. rewrite <- probabilities_counts, Rsum_quotients, Counter_total.
  pose proof (INR_length_pos l Hne). field. lra.
Qed.

Lemma probabilities_pos l : Forall (fun p => 0 < p) (probabilities l).
Proof.
  unfold probabilities. apply Forall_fmap, Forall_forall. intros x Hx. simpl.
  rewrite first_seen_elem_of in Hx.
  assert (l ≠ []) as Hne by (intros ->; inversion Hx).
  apply Rdiv_lt_0_compat; [|by apply INR_length_pos].
  apply lt_0_INR. by apply occurrences_pos.
Qed.

Lemma probabilities_length l : length (probabilities l) = distinct l.
Proof. unfold probabilities, distinct. by rewrite length_fmap, first_seen_length. Qed.

Lemma compute_entropy_normalised sequences :
  concat sequences ≠ [] →
  compute_entropy sequences
  = Ok (Rsum (entr <$> probabilities (concat sequences)) / ln 10).
Proof.
  intros Hne. rewrite compute_entropy_value.
  by rewrite et_normalised by (by apply probabilities_sum).
Qed.

End entropy_facts.


(** ** Entropy of particular populations *)

Section entropy_claims.
Context {A : Type} `{EqDecision A}.
Implicit Types (l : list A) (sequences : list (list A)).

Lemma filter_none (P : A → Prop) `{∀ x, Decision (P x)} l :
  Forall (fun y => ¬ P y) l → filter P l = [].
Proof.
  induction 1 as [|y l Hy _ IH]; [done|].
  by rewrite filter_cons, decide_False.
Qed.

Lemma first_seen_single l x :
  l ≠ [] → Forall (fun y => y = x) l → first_seen l = [x].
Proof.
  intros Hne Hall. destruct Hall as [|y l -> Hall]; [done|]. simpl. f_equal.
  apply filter_none, Forall_forall. intros y Hy Hneq. apply Hneq.
  rewrite first_seen_elem_of in Hy.
  by apply (proj1 (Forall_forall _ _) Hall).
Qed.

(** C4. When the flattened population is not empty and all its symbols are
    one and the same symbol, [compute_entropy] returns 0. *)
Theorem compute_entropy_single_symbol sequences (x : A) :
  concat sequences ≠ [] →
  Forall (fun y => y = x) (concat sequences) →
  compute_entropy sequences = Ok 0%R.
Proof.
  intros Hne Hall. rewrite compute_entropy_normalised by done.
  pose proof (probabilities_sum _ Hne) as Hsum.
  unfold probabilities in *. rewrite (first_seen_single _ x Hne Hall) in *.
  simpl in *. f_equal.
  assert (INR (occurrences x (concat sequences)) / INR (length (concat sequences)) = 1)%R
    as -> by lra.
  rewrite entr_1. unfold Rdiv. lra.
Qed.

End entropy_claims.

Lemma compute_entropy_single_symbol_witness :
  compute_entropy [["x"; "x"]; []; ["x"]] = Ok 0%R.
Proof.
  apply (compute_entropy_single_symbol [["x"; "x"]; []; ["x"]] "x").
  - simpl. discriminate.
  - simpl. repeat constructor.
Defined.

(** ** [cf_entropy_seq]: tables without rows, tables without a column *)

Lemma has_column_false df col : has_column df col = false ↔ df_data df !! col = None.
Proof.
  unfold has_column. rewrite bool_decide_eq_false, <- eq_None_not_Some. done.
Qed.

Lemma has_column_true df col : has_column df col = true ↔ is_Some (df_data df !! col).
Proof. unfold has_column. by rewrite bool_decide_eq_true. Qed.

Lemma iterrows_no_rows log : nrows log = 0 → iterrows log = [].
Proof.
  unfold nrows, iterrows. intros Hn.
  by rewrite (nil_length_inv _ Hn).
Qed.

Lemma cf_entropy_seq_cases log prefix a c rsc cases :
  cf_cases log a c = Ok cases →
  cf_entropy_seq log prefix a c rsc = Ok (cf_result prefix rsc cases).
Proof.
  intros Hc. unfold cf_entropy_seq, cf_result. rewrite Hc. simpl.
  rewrite compute_entropy_value. simpl. by destruct rsc.
Qed.

Lemma cf_entropy_seq_raise log prefix a c rsc e :
  cf_cases log a c = Raise e → cf_entropy_seq log prefix a c rsc = Raise e.
Proof. intros Hc. unfold cf_entropy_seq. by rewrite Hc. Qed.

Lemma cf_entropy_seq_no_rows_value log prefix a c rsc :
  nrows log = 0 →
  cf_entropy_seq log prefix a c rsc =
  Ok (if rsc then EntropyCount (et [] 10) 0 else Entropy (et [] 10)).
Proof.
  intros Hn. rewrite (cf_entropy_seq_cases _ _ _ _ _ []).
  - unfold cf_result. by destruct prefix, rsc.
  - unfold cf_cases. by rewrite iterrows_no_rows.
Qed.

Lemma cf_row_raise_case_id c a cases it e :
  getitem it.2 c = Raise e → cf_row c a cases it = Raise e.
Proof. intros Hc. unfold cf_row. by rewrite Hc. Qed.

Lemma cf_row_raise_activity c a cases it v e :
  getitem it.2 c = Ok v → getitem it.2 a = Raise e → cf_row c a cases it = Raise e.
Proof. intros Hc Ha. unfold cf_row. rewrite Hc. simpl. by rewrite Ha. Qed.

Lemma cf_cases_first_row log a c it e :
  iterrows log !! 0 = Some it →
  cf_row c a [] it = Raise e →
  cf_cases log a c = Raise e.
Proof.
  unfold cf_cases. destruct (iterrows log) as [|it' rest]; [done|].
  intros [= ->] Hr. cbn [for_each]. by rewrite Hr.
Qed.

Lemma iterrows_first log : 0 < nrows log → is_Some (iterrows log !! 0).
Proof. intros Hn. apply lookup_lt_is_Some. by rewrite length_iterrows. Qed.

(** C1 (as amended). On a table without rows [cf_entropy_seq] does not fail.
    The empty population reaches [compute_entropy], whose frequency table is
    then empty: no quotient is evaluated, and the call returns the entropy
    of the empty probability vector, with the sequence count 0 if asked. *)
Theorem cf_entropy_seq_no_rows log prefix a c rsc :
  nrows log = 0 →
  cf_entropy_seq log prefix a c rsc
  = Ok (if rsc then EntropyCount (et [] 10) 0 else Entropy (et [] 10)) ∧
  compute_entropy ([] : list (list Cell)) = Ok (et [] 10) ∧
  ∀ sequences : list (list Cell), compute_entropy sequences ≠ Raise ZeroDivisionError.
Proof.
  intros Hn. split; [by apply cf_entropy_seq_no_rows_value|].
  split; [done|]. intros sequences. by rewrite compute_entropy_value.
Qed.

Lemma cf_entropy_seq_no_rows_witness :
  cf_entropy_seq log_no_rows true "concept:name" "case:concept:name" true
  = Ok (EntropyCount (et [] 10) 0).
Proof.
  refine (proj1 (cf_entropy_seq_no_rows log_no_rows true _ _ true _)).
  reflexivity.
Defined.

(** C1 (as stated) fails: the log without rows makes [cf_entropy_seq] return
    normally, not raise a division by zero. *)
Lemma cf_entropy_seq_no_rows_returns :
  nrows log_empty = 0 ∧
  cf_entropy_seq log_empty true "concept:name" "case:concept:name" false
  = Ok (Entropy (et [] 10)) ∧
  cf_entropy_seq log_empty true "concept:name" "case:concept:name" false
  ≠ Raise ZeroDivisionError.
Proof.
  assert (cf_entropy_seq log_empty true "concept:name" "case:concept:name" false
          = Ok (Entropy (et [] 10))) as Hv
    by (by apply cf_entropy_seq_no_rows_value).
  split; [done|]. split; [done|]. by rewrite Hv.
Qed.

(** C10. A table without rows yields no row to look a column up in: the
    loop body is never run and [cf_entropy_seq] raises nothing, whichever
    column names are configured.  Hence a [KeyError] from [cf_entropy_seq]
    implies that the table has at least one row. *)
Theorem cf_entropy_seq_no_rows_no_lookup log prefix a c rsc :
  nrows log = 0 →
  iterrows log = [] ∧
  cf_cases log a c = Ok [] ∧
  (∀ e, cf_entropy_seq log prefix a c rsc ≠ Raise e) ∧
  (∀ log' label,
     cf_entropy_seq log' prefix a c rsc = Raise (KeyError label) → 0 < nrows log').
Proof.
  intros Hn. split; [by apply iterrows_no_rows|].
  split; [unfold cf_cases; by rewrite iterrows_no_rows|].
  split.
  - intros e. by rewrite cf_entropy_seq_no_rows_value.
  - intros log' label Hraise.
    destruct (decide (nrows log' = 0)) as [Hz|]; [|lia].
    by rewrite cf_entropy_seq_no_rows_value in Hraise.
Qed.

Lemma cf_entropy_seq_no_rows_no_lookup_witness :
  has_column log_empty "nonexistent_col" = false ∧
  ∀ e, cf_entropy_seq log_empty true "nonexistent_col" "case:concept:name" false ≠ Raise e.
Proof.
  split; [reflexivity|].
  refine (proj1 (proj2 (proj2
    (cf_entropy_seq_no_rows_no_lookup log_empty true _ _ false _)))).
  reflexivity.
Defined.

(** C2 (as amended). On a table with at least one row, a missing case
    identifier column makes [cf_entropy_seq] raise [KeyError] for it at the
    first row; so does a missing activity column when the case identifier
    column is there.  Nothing catches the error. *)
Theorem cf_entropy_seq_missing_column log prefix a c rsc :
  0 < nrows log →
  (has_column log c = false →
   cf_entropy_seq log prefix a c rsc = Raise (KeyError c)) ∧
  (well_formed log → has_column log c = true → has_column log a = false →
   cf_entropy_seq log prefix a c rsc = Raise (KeyError a)).
Proof.
  intros Hn. destruct (iterrows_first log Hn) as [it Hit].
  split.
  - intros Hc%has_column_false. apply cf_entropy_seq_raise.
    apply (cf_cases_first_row _ _ _ it); [done|].
    apply cf_row_raise_case_id.
    by rewrite (getitem_iterrows _ _ _ _ Hit), Hc.
  - intros Hwf [cids Hc]%has_column_true Ha%has_column_false.
    apply cf_entropy_seq_raise.
    apply (cf_cases_first_row _ _ _ it); [done|].
    pose proof (well_formed_length _ _ _ Hwf Hc) as Hlen.
    destruct cids as [|v cids]; [simpl in Hlen; lia|].
    apply (cf_row_raise_activity _ _ _ _ v).
    + by rewrite (getitem_iterrows _ _ _ _ Hit), Hc.
    + by rewrite (getitem_iterrows _ _ _ _ Hit), Ha.
Qed.

Lemma cf_entropy_seq_missing_column_witness :
  cf_entropy_seq log_no_activity true "nonexistent_col" "case:concept:name" false
  = Raise (KeyError "nonexistent_col").
Proof.
  refine (proj2 (cf_entropy_seq_missing_column log_no_activity true
                   "nonexistent_col" "case:concept:name" false _) _ _ _).
  - unfold nrows. simpl. lia.
  - apply (bool_decide_unpack _). by vm_compute.
  - reflexivity.
  - reflexivity.
Defined.

(** C2 (as stated) fails: a log without rows that lacks the activity column
    raises no lookup failure. *)
Lemma cf_entropy_seq_missing_column_no_rows :
  has_column log_no_rows "nonexistent_col" = false ∧
  cf_entropy_seq log_no_rows true "nonexistent_col" "case:concept:name" false
  = Ok (Entropy (et [] 10)) ∧
  ¬ ∃ label,
      cf_entropy_seq log_no_rows true "nonexistent_col" "case:concept:name" false
      = Raise (KeyError label).
Proof.
  assert (cf_entropy_seq log_no_rows true "nonexistent_col" "case:concept:name" false
          = Ok (Entropy (et [] 10))) as Hv
    by (by apply cf_entropy_seq_no_rows_value).
  split; [reflexivity|]. split; [done|]. intros [label Hl]. by rewrite Hv in Hl.
Qed.

(** ** [cf_entropy_seq]: the per-case mapping and the sequence count *)

Lemma sum_lengths_od_set (d : list (Cell * list Cell)) k v :
  sum_list (length <$> od_values (od_set d k v)) + length (default [] (od_get d k))
  = sum_list (length <$> od_values d) + length v.
Proof.
  unfold od_values. induction d as [|[k' v'] d IH]; csimpl; [lia|].
  case_decide; csimpl; lia.
Qed.

Lemma group_events_total events :
  sum_list (length <$> od_values (group_events events)) = length events.
Proof.
  induction events as [|e events IH] using rev_ind; [done|].
  rewrite group_events_snoc, length_app. simpl.
  destruct (od_get (group_events events) e.1) as [tr|] eqn:Hget.
  - rewrite (cases_append_old _ _ _ _ Hget).
    pose proof (sum_lengths_od_set (group_events events) e.1 (tr ++ [e.2])) as Hs.
    rewrite Hget, length_app in Hs. simpl in Hs. lia.
  - apply od_get_None in Hget. rewrite (cases_append_new _ _ _ Hget).
    unfold od_values in *. rewrite !fmap_app, sum_list_with_app, IH. simpl. lia.
Qed.

Lemma zip_events_fst (cids acts : list Cell) n :
  length cids = length acts → (take n (zip cids acts)).*1 = take n cids.
Proof.
  intros Hlen. rewrite zip_with_take, fst_zip; [done|].
  rewrite !length_take. lia.
Qed.

Section cf_claims.
Variables (log : DataFrame) (activity_name case_id_name : string).
Variables (cids acts : list Cell).
Hypothesis Hwf : well_formed log.
Hypothesis Hcids : df_data log !! case_id_name = Some cids.
Hypothesis Hacts : df_data log !! activity_name = Some acts.

Lemma cids_acts_length : length cids = nrows log ∧ length acts = nrows log.
Proof.
  split; [exact (well_formed_length _ _ _ Hwf Hcids)
         | exact (well_formed_length _ _ _ Hwf Hacts)].
Qed.

Lemma events_fst : (zip cids acts).*1 = cids.
Proof. destruct cids_acts_length. apply fst_zip. lia. Qed.

Lemma events_length : length (zip cids acts) = nrows log.
Proof. destruct cids_acts_length. rewrite length_zip_with. lia. Qed.

(** C6. On a table that has both configured columns, [cf_entropy_seq] with
    [return_sequence_count=True] returns a pair.  Its second component is
    the number of distinct case identifiers at trace level, and the sum of
    the lengths of the per-case traces, which is the number of rows, at
    prefix level. *)
Theorem cf_entropy_seq_count (prefix : bool) :
  ∃ cases h,
    cf_cases log activity_name case_id_name = Ok cases ∧
    sum_list (length <$> od_values cases) = nrows log ∧
    cf_entropy_seq log prefix activity_name case_id_name true
    = Ok (EntropyCount h (if prefix then sum_list (length <$> od_values cases)
                          else distinct cids)).
Proof.
  pose proof (cf_cases_events _ _ _ _ _ Hwf Hcids Hacts) as Hcases.
  eexists _, _. split; [exact Hcases|].
  split; [by rewrite group_events_total, events_length|].
  rewrite (cf_entropy_seq_cases _ _ _ _ _ _ Hcases). unfold cf_result.
  f_equal. f_equal. destruct prefix.
  - by rewrite length_get_all_prefixes.
  - rewrite od_values_length, (proj1 (group_events_spec _)), events_fst.
    by rewrite first_seen_length.
Qed.

(** C7. The mapping built by the loop of [cf_entropy_seq]:
    - its keys are the case identifiers in the order in which they are first
      seen, and the sequence of a case holds the activities of the rows of
      that case in table order, after any number [n] of rows and so at the
      end of the loop;
    - row [n] creates the sequence of its case identifier, after all
      existing entries, when the identifier was not seen in the rows above,
      and otherwise appends its activity to the existing sequence, every
      entry keeping its place. *)
Theorem cf_cases_invariant :
  (∀ n, ∃ cases,
     cf_cases_upto n log activity_name case_id_name = Ok cases ∧
     (n = nrows log → cf_cases log activity_name case_id_name = Ok cases) ∧
     od_keys cases = first_seen (take n cids) ∧
     ∀ k, od_get cases k =
          if decide (k ∈ take n cids)
          then Some (trace_of k (take n (zip cids acts))) else None) ∧
  (∀ n k x before,
     cids !! n = Some k → acts !! n = Some x →
     cf_cases_upto n log activity_name case_id_name = Ok before →
     cf_cases_upto (S n) log activity_name case_id_name
     = Ok (match od_get before k with
           | None => before ++ [(k, [x])]
           | Some tr => od_set before k (tr ++ [x])
           end) ∧
     (od_get before k = None ↔ k ∉ take n cids) ∧
     (∀ tr, od_get before k = Some tr →
            od_keys (od_set before k (tr ++ [x])) = od_keys before)).
Proof.
  destruct cids_acts_length as [Hlc Hla].
  assert (∀ n, cf_cases_upto n log activity_name case_id_name
               = Ok (group_events (take n (zip cids acts)))) as Hupto
    by (intros n; by apply cf_cases_upto_events).
  assert (∀ n, (take n (zip cids acts)).*1 = take n cids) as Hfst
    by (intros n; apply zip_events_fst; lia).
  split.
  - intros n. eexists. split; [apply Hupto|].
    destruct (group_events_spec (take n (zip cids acts))) as [Hk Hg].
    rewrite Hfst in Hk, Hg. split; [|done].
    intros ->. by rewrite <- cf_cases_upto_all.
  - intros n k x before Hk Hx Hbefore.
    rewrite Hupto in Hbefore. injection Hbefore as <-.
    destruct (group_events_spec (take n (zip cids acts))) as [Hkeys Hg].
    rewrite Hfst in Hkeys, Hg.
    assert (zip cids acts !! n = Some (k, x)) as Hev.
    { apply lookup_zip_with_Some. by eexists _, _. }
    rewrite Hupto, (take_S_r _ _ _ Hev), group_events_snoc. simpl.
    split; [|split].
    + destruct (od_get _ k) as [tr|] eqn:Hget.
      * by rewrite (cases_append_old _ _ _ _ Hget).
      * apply od_get_None in Hget. by rewrite (cases_append_new _ _ _ Hget).
    + rewrite Hg. case_decide; [split; [done | by intros ?] | done].
    + intros tr Htr. apply od_set_keys.
      destruct (decide (k ∈ od_keys (group_events (take n (zip cids acts)))))
        as [|Hni]; [done|].
      apply od_get_None in Hni. congruence.
Qed.

End cf_claims.

Lemma well_formed_log_xy : well_formed log_xy.
Proof. apply (bool_decide_unpack _). by vm_compute. Defined.

Lemma cf_entropy_seq_count_witness :
  ∃ cases h,
    cf_cases log_xy "concept:name" "case:concept:name" = Ok cases ∧
    sum_list (length <$> od_values cases) = nrows log_xy ∧
    cf_entropy_seq log_xy false "concept:name" "case:concept:name" true
    = Ok (EntropyCount h (distinct (VStr <$> ["A"; "B"; "A"; "B"; "A"; "B"]))).
Proof.
  refine (cf_entropy_seq_count log_xy "concept:name" "case:concept:name"
            (VStr <$> ["A"; "B"; "A"; "B"; "A"; "B"])
            (VStr <$> ["x"; "y"; "x"; "y"; "x"; "y"])
            well_formed_log_xy _ _ false).
  - reflexivity.
  - reflexivity.
Defined.

Lemma cf_cases_invariant_witness :
  ∃ cases,
    cf_cases_upto 3 log_xy "concept:name" "case:concept:name" = Ok cases ∧
    od_keys cases = [VStr "A"; VStr "B"] ∧
    od_get cases (VStr "A") = Some [VStr "x"; VStr "x"].
Proof.
  destruct (proj1 (cf_cases_invariant log_xy "concept:name" "case:concept:name"
                     (VStr <$> ["A"; "B"; "A"; "B"; "A"; "B"])
                     (VStr <$> ["x"; "y"; "x"; "y"; "x"; "y"])
                     well_formed_log_xy eq_refl eq_refl) 3)
    as (cases & Hcases & _ & Hkeys & Hget).
  exists cases. split; [exact Hcases|]. split; [exact Hkeys|].
  exact (Hget (VStr "A")).
Defined.

(** ** [convert_and_clean] *)

Section normaliser_facts.
Variable convert_log : DataFrame → DataFrame.
Variable parse_datetime : list Cell → string → option Z.


Lemma parse_column_alter df col :
  parse_column parse_datetime df col = mkDataFrame (df_index df) (alter (to_datetime parse_datetime) col (df_data df)).
Proof.
  unfold parse_column. destruct (has_column df col) eqn:Hc; [done|].
  apply has_column_false in Hc. rewrite alter_id' by done. by destruct df.
Qed.

Lemma finish_data df :
  df_data (finish parse_datetime df)
  = alter (to_datetime parse_datetime) end_col (alter (to_datetime parse_datetime) start_col (df_data df)).
Proof. unfold finish. simpl. by rewrite !parse_column_alter. Qed.

Lemma finish_nrows df : nrows (finish parse_datetime df) = nrows df.
Proof.
  unfold finish, reset_index, nrows. simpl.
  rewrite length_fmap, length_seq. by rewrite !parse_column_alter.
Qed.

Lemma finish_index df : df_index (finish parse_datetime df) = Z.of_nat <$> seq 0 (nrows df).
Proof.
  unfold finish, reset_index. simpl. by rewrite !parse_column_alter.
Qed.

Lemma finish_lookup df col :
  df_data (finish parse_datetime df) !! col
  = if decide (col = start_col ∨ col = end_col)
    then (to_datetime parse_datetime) <$> df_data df !! col else df_data df !! col.
Proof.
  rewrite finish_data.
  destruct (decide (col = start_col ∨ col = end_col)) as [[->| ->]|Hn].
  - rewrite lookup_alter_ne by done. by rewrite lookup_alter_eq.
  - rewrite lookup_alter_eq. by rewrite lookup_alter_ne by done.
  - rewrite !lookup_alter_ne; [done | |]; intros <-; apply Hn; auto.
Qed.

Lemma has_column_finish df col : has_column (finish parse_datetime df) col = has_column df col.
Proof.
  unfold has_column. apply bool_decide_ext. rewrite finish_lookup.
  case_decide; [|done]. by rewrite fmap_is_Some.
Qed.

Lemma convert_and_clean_plain_inv df out :
  has_column df lifecycle_col = false →
  convert_and_clean convert_log parse_datetime df = Ok out →
  out = finish parse_datetime df.
Proof. intros Hl. unfold convert_and_clean. rewrite Hl. simpl. by intros [= <-]. Qed.

End normaliser_facts.

(** * Further properties *)

(** ** [get_all_prefixes] *)

Section prefix_more.
Context {A : Type} `{EqDecision A}.
Implicit Types (s p : list A) (sequences : list (list A)).

Lemma prefixes_of_cons (y : A) s :
  prefixes_of (y :: s) = [y] :: ((fun p => y :: p) <$> prefixes_of s).
Proof.
  unfold prefixes_of. simpl. f_equal.
  rewrite <- fmap_S_seq, <- !list_fmap_compose. by apply list_fmap_ext.
Qed.

Lemma elem_of_prefixes_of s p : p ∈ prefixes_of s ↔ p ≠ [] ∧ p `prefix_of` s.
Proof.
  unfold prefixes_of. rewrite list_elem_of_fmap. split.
  - intros (i & -> & Hi). apply elem_of_seq in Hi. split.
    + destruct s; simpl in *; [lia|]. destruct i; [lia|done].
    + exists (drop i s). by rewrite take_drop.
  - intros [Hne [k ->]]. exists (length p). split.
    + by rewrite take_app_length.
    + apply elem_of_seq. rewrite length_app. destruct p; [done|]. simpl. lia.
Qed.

Lemma elem_of_concat {B} (x : B) (L : list (list B)) :
  x ∈ concat L ↔ ∃ l, x ∈ l ∧ l ∈ L.
Proof.
  induction L as [|l L IH]; simpl.
  - split; [by intros ?%elem_of_nil | by intros (l & _ & ?%elem_of_nil)].
  - rewrite elem_of_app, IH. split.
    + intros [Hx|(l' & Hx & Hl)].
      * exists l. split; [done|]. apply elem_of_cons. by left.
      * exists l'. split; [done|]. apply elem_of_cons. by right.
    + intros (l' & Hx & [->|Hl]%elem_of_cons); [by left | right; eauto].
Qed.

(** X1. Expanding a collection that is made of two parts gives the
    expansion of the first part followed by the expansion of the second. *)
Theorem get_all_prefixes_app (sequences1 sequences2 : list (list A)) :
  get_all_prefixes (sequences1 ++ sequences2)
  = get_all_prefixes sequences1 ++ get_all_prefixes sequences2.
Proof. rewrite !get_all_prefixes_concat. by rewrite fmap_app, concat_app. Qed.

(** X2. The sequences returned by [get_all_prefixes] are exactly the
    non-empty prefixes of the input sequences: none is empty, so an empty
    input sequence contributes nothing, and every non-empty input sequence
    is itself returned. *)
Theorem elem_of_get_all_prefixes sequences p :
  (p ∈ get_all_prefixes sequences ↔
   p ≠ [] ∧ ∃ s, s ∈ sequences ∧ p `prefix_of` s) ∧
  (∀ s, s ∈ sequences → s ≠ [] → s ∈ get_all_prefixes sequences).
Proof.
  assert (∀ q, q ∈ get_all_prefixes sequences ↔
               q ≠ [] ∧ ∃ s, s ∈ sequences ∧ q `prefix_of` s) as Hchar.
  { intros q. rewrite get_all_prefixes_concat, elem_of_concat. split.
    - intros (l & Hq & Hl). apply list_elem_of_fmap in Hl as (s & -> & Hs).
      apply elem_of_prefixes_of in Hq as [Hne Hpre]. eauto.
    - intros (Hne & s & Hs & Hpre). exists (prefixes_of s). split.
      + by apply elem_of_prefixes_of.
      + apply list_elem_of_fmap. eauto. }
  split; [apply Hchar|].
  intros s Hs Hne. apply Hchar. split; [done|]. by exists s.
Qed.

Lemma length_concat_cons_each (y : A) (L : list (list A)) :
  length (concat ((fun p => y :: p) <$> L)) = length L + length (concat L).
Proof.
  induction L as [|p L IH]; csimpl; [done|]. rewrite !length_app, IH. lia.
Qed.

Lemma length_concat_prefixes_of s :
  2 * length (concat (prefixes_of s)) = length s * (length s + 1).
Proof.
  induction s as [|y s IH]; [done|].
  rewrite prefixes_of_cons. csimpl.
  rewrite length_concat_cons_each, length_prefixes_of. lia.
Qed.

(** X3. Under prefix expansion a sequence of length [n] contributes
    [n (n + 1) / 2] symbol occurrences to the flattened population. *)
Theorem length_concat_get_all_prefixes sequences :
  2 * length (concat (get_all_prefixes sequences))
  = sum_list ((fun s => length s * (length s + 1)) <$> sequences).
Proof.
  rewrite get_all_prefixes_concat.
  induction sequences as [|s sequences IH]; csimpl; [done|].
  rewrite concat_app, length_app.
  pose proof (length_concat_prefixes_of s). lia.
Qed.

Lemma occurrences_app (x : A) (l k : list A) :
  occurrences x (l ++ k) = occurrences x l + occurrences x k.
Proof. unfold occurrences. by rewrite filter_app, length_app. Qed.

Lemma occurrences_cons (x y : A) (l : list A) :
  occurrences x (y :: l) = (if decide (y = x) then 1 else 0) + occurrences x l.
Proof. unfold occurrences. rewrite filter_cons. by case_decide. Qed.

Lemma occurrences_concat_cons_each (x y : A) (L : list (list A)) :
  occurrences x (concat ((fun p => y :: p) <$> L))
  = (if decide (y = x) then length L else 0) + occurrences x (concat L).
Proof.
  induction L as [|p L IH]; csimpl; [by case_decide|].
  rewrite occurrences_cons, !occurrences_app, IH. case_decide; lia.
Qed.

Lemma occurrences_prefixes_of (x : A) s :
  occurrences x (concat (prefixes_of s)) = prefix_weight x s.
Proof.
  induction s as [|y s IH]; [done|].
  rewrite prefixes_of_cons. csimpl.
  rewrite occurrences_cons, occurrences_concat_cons_each, length_prefixes_of, IH.
  unfold occurrences. simpl. case_decide; lia.
Qed.

(** X4. In the population produced by prefix expansion a symbol [x] is
    counted, for every position of every sequence that holds [x], once per
    prefix reaching that position: the number of positions from there to
    the end of the sequence. *)
Theorem occurrences_get_all_prefixes (x : A) sequences :
  occurrences x (concat (get_all_prefixes sequences))
  = sum_list (prefix_weight x <$> sequences).
Proof.
  rewrite get_all_prefixes_concat.
  induction sequences as [|s sequences IH]; csimpl; [done|].
  by rewrite concat_app, occurrences_app, occurrences_prefixes_of, IH.
Qed.

End prefix_more.

Example prefix_weight_abc :
  prefix_weight "a" ["a"; "b"; "c"] = 3 ∧
  prefix_weight "b" ["a"; "b"; "c"] = 2 ∧
  prefix_weight "c" ["a"; "b"; "c"] = 1.
Proof. by vm_compute. Qed.

(** ** [compute_entropy] *)

Section entropy_more.
Context {A : Type} `{EqDecision A}.
Implicit Types (l : list A) (sequences : list (list A)).
Local Open Scope R_scope.

Lemma Rsum_nonneg (pk : list R) : Forall (fun p => 0 <= p) pk → 0 <= Rsum pk.
Proof. unfold Rsum. induction 1 as [|p pk Hp _ IH]; simpl; lra. Qed.

Lemma Rsum_elem_le (pk : list R) (p : R) :
  Forall (fun p => 0 <= p) pk → p ∈ pk → p <= Rsum pk.
Proof.
  intros Hall Hin. induction Hall as [|q pk Hq Hall IH]; [by apply elem_of_nil in Hin|].
  pose proof (Rsum_nonneg pk Hall) as Hs. unfold Rsum in *. simpl.
  apply elem_of_cons in Hin as [->|Hin]; [lra|]. specialize (IH Hin). lra.
Qed.

Lemma Rsum_zero (pk : list R) :
  Forall (fun p => 0 <= p) pk → Rsum pk = 0 → Forall (fun p => p = 0) pk.
Proof.
  induction 1 as [|p pk Hp Hall IH]; [done|].
  pose proof (Rsum_nonneg pk Hall) as Hs. unfold Rsum in *. simpl. intros Hsum.
  constructor; [lra|]. apply IH. lra.
Qed.

Lemma entr_nonneg (p : R) : 0 < p → p <= 1 → 0 <= entr p.
Proof.
  intros Hp Hle. rewrite entr_pos by done.
  assert (ln p <= 0).
  { destruct (Req_dec p 1) as [->|Hne]; [rewrite ln_1; lra|].
    rewrite <- ln_1. apply Rlt_le, ln_increasing; lra. }
  assert (0 <= p * - ln p) by (apply Rmult_le_pos; lra). lra.
Qed.

Lemma entr_zero (p : R) : 0 < p → entr p = 0 → p = 1.
Proof.
  intros Hp. rewrite entr_pos by done. intros Hz.
  destruct (Req_dec p 1) as [|Hne]; [done|].
  pose proof (ln_neq_0 p Hne Hp) as Hln.
  assert (p * ln p = 0) as [?|?]%Rmult_integral by lra; lra.
Qed.

Lemma probabilities_le_1 l : l ≠ [] → Forall (fun p => 0 < p ∧ p <= 1) (probabilities l).
Proof.
  intros Hne. pose proof (probabilities_pos l) as Hpos.
  pose proof (probabilities_sum l Hne) as Hsum.
  apply Forall_forall. intros p Hp. split.
  - by apply (proj1 (Forall_forall _ _) Hpos).
  - rewrite <- Hsum. apply Rsum_elem_le; [|done].
    eapply Forall_impl; [exact Hpos|]. intros q Hq. simpl in Hq. lra.
Qed.

Lemma entr_probabilities_nonneg l :
  l ≠ [] → Forall (fun h => 0 <= h) (entr <$> probabilities l).
Proof.
  intros Hne. apply Forall_fmap.
  eapply Forall_impl; [by apply probabilities_le_1|].
  intros p [Hp Hle]. by apply entr_nonneg.
Qed.

(** X6. On a non-empty population [compute_entropy] returns a value that is
    not negative (floats read as reals). *)
Theorem compute_entropy_nonneg sequences :
  concat sequences ≠ [] →
  ∃ h, compute_entropy sequences = Ok h ∧ 0 <= h.
Proof.
  intros Hne. eexists. split; [by apply compute_entropy_normalised|].
  pose proof ln_10_pos.
  apply Rmult_le_pos; [|by apply Rlt_le, Rinv_0_lt_compat].
  by apply Rsum_nonneg, entr_probabilities_nonneg.
Qed.

(** X7. The converse of C4: when [compute_entropy] returns 0 on a non-empty
    population, the population consists of one distinct symbol (floats read
    as reals). *)
Theorem compute_entropy_zero_single sequences :
  concat sequences ≠ [] →
  compute_entropy sequences = Ok 0 →
  distinct (concat sequences) = 1%nat ∧
  ∃ x, Forall (fun y => y = x) (concat sequences).
Proof.
  intros Hne. rewrite compute_entropy_normalised by done. intros [= Hz].
  set (l := concat sequences) in *. pose proof ln_10_pos as H10.
  assert (Rsum (entr <$> probabilities l) = 0) as Hsum.
  { apply Rmult_integral in Hz as [|Hinv]; [done|].
    pose proof (Rinv_0_lt_compat _ H10). lra. }
  assert (Forall (fun p => p = 1) (probabilities l)) as Hone.
  { pose proof (Rsum_zero _ (entr_probabilities_nonneg l Hne) Hsum) as Hall.
    apply Forall_fmap in Hall. pose proof (probabilities_le_1 l Hne) as Hpos.
    apply Forall_forall. intros p Hp.
    apply entr_zero.
    - by apply (proj1 (Forall_forall _ _) Hpos).
    - by apply (proj1 (Forall_forall _ _) Hall). }
  assert (length (first_seen l) = 1%nat) as Hlen.
  { rewrite first_seen_length. fold (distinct l). rewrite <- probabilities_length.
    pose proof (probabilities_sum l Hne) as Hs.
    destruct (probabilities l) as [|p1 [|p2 rest]].
    - unfold Rsum in Hs. simpl in Hs. lra.
    - done.
    - exfalso. inversion Hone as [|? ? H1 Hone']. inversion Hone' as [|? ? H2 Hone''].
      subst.
      assert (Forall (fun p => 0 <= p) rest) as Hnn.
      { eapply Forall_impl; [exact Hone''|]. intros q ->. lra. }
      pose proof (Rsum_nonneg _ Hnn) as Hge. unfold Rsum in *. simpl in Hs. lra. }
  split; [unfold distinct; by rewrite <- first_seen_length|].
  destruct (first_seen l) as [|x [|? ?]] eqn:Hfs; try done.
  exists x. apply Forall_forall. intros y Hy.
  apply first_seen_elem_of in Hy. rewrite Hfs in Hy.
  by apply list_elem_of_singleton in Hy.
Qed.

End entropy_more.

Lemma compute_entropy_xx : compute_entropy [["x"; "x"]] = Ok 0%R.
Proof.
  assert (concat [["x"; "x"]] ≠ []) as Hne by (simpl; discriminate).
  rewrite compute_entropy_normalised by done.
  pose proof (probabilities_sum _ Hne) as Hsum. unfold probabilities in *.
  rewrite (first_seen_single _ "x" Hne) in * by (simpl; repeat constructor).
  simpl in *. f_equal.
  assert (INR (occurrences "x" ["x"; "x"]) / INR 2 = 1)%R as Hone
    by (simpl in *; lra).
  simpl in Hone. rewrite Hone, entr_1. unfold Rdiv. lra.
Defined.

Lemma compute_entropy_nonneg_witness :
  ∃ h, compute_entropy [["x"; "y"]; ["x"]] = Ok h ∧ (0 <= h)%R.
Proof. apply compute_entropy_nonneg. simpl. discriminate. Defined.

Lemma compute_entropy_zero_single_witness :
  distinct (concat [["x"; "x"]]) = 1 ∧
  ∃ x, Forall (fun y => y = x) (concat [["x"; "x"]]).
Proof.
  apply compute_entropy_zero_single.
  - simpl. discriminate.
  - exact compute_entropy_xx.
Defined.

(** ** [cf_entropy_seq] *)

Lemma Forall_od_values_od_set {K V} `{EqDecision K} (P : V → Prop)
    (d : list (K * V)) k v :
  Forall P (od_values d) → P v → Forall P (od_values (od_set d k v)).
Proof.
  unfold od_values. intros Hall Hv.
  induction d as [|[k' v'] d IH]; csimpl in *; [by constructor|].
  inversion Hall as [|? ? Hv' Hall']; subst.
  case_decide; csimpl; constructor; auto.
Qed.

Lemma concat_od_values_od_set (d : list (Cell * list Cell)) k tr a :
  od_get d k = Some tr →
  concat (od_values (od_set d k (tr ++ [a]))) ≡ₚ concat (od_values d) ++ [a].
Proof.
  unfold od_values. induction d as [|[k' v'] d IH]; csimpl; [done|].
  case_decide; csimpl.
  - intros [= ->]. rewrite <- !app_assoc. apply Permutation_app_head.
    apply Permutation_app_comm.
  - intros Hget. rewrite (IH Hget). by rewrite app_assoc.
Qed.

Lemma group_events_concat events :
  concat (od_values (group_events events)) ≡ₚ events.*2.
Proof.
  induction events as [|e events IH] using rev_ind; [done|].
  rewrite group_events_snoc, fmap_app. simpl.
  destruct (od_get (group_events events) e.1) as [tr|] eqn:Hget.
  - rewrite (cases_append_old _ _ _ _ Hget).
    by rewrite (concat_od_values_od_set _ _ _ _ Hget), IH.
  - apply od_get_None in Hget. rewrite (cases_append_new _ _ _ Hget).
    unfold od_values in *. rewrite fmap_app, concat_app, IH. by csimpl.
Qed.

Lemma group_events_nonempty events :
  Forall (fun tr => tr ≠ []) (od_values (group_events events)).
Proof.
  induction events as [|e events IH] using rev_ind; [constructor|].
  rewrite group_events_snoc.
  destruct (od_get (group_events events) e.1) as [tr|] eqn:Hget.
  - rewrite (cases_append_old _ _ _ _ Hget).
    apply Forall_od_values_od_set; [done|]. by destruct tr.
  - apply od_get_None in Hget. rewrite (cases_append_new _ _ _ Hget).
    unfold od_values in *. rewrite fmap_app. apply Forall_app. split; [done|].
    by repeat constructor.
Qed.

Lemma for_each_ext {B S} (body : S → B → Err S) (s : S) (xs ys : list B) :
  Forall2 (fun x y => ∀ s, body s x = body s y) xs ys →
  for_each body s xs = for_each body s ys.
Proof.
  intros HF. revert s. induction HF as [|x y xs ys Hxy _ IH]; intros s; simpl; [done|].
  rewrite Hxy. destruct (body s y) as [s'|e]; simpl; [apply IH | done].
Qed.

(** The loop reads the two configured columns and the number of rows. *)
Lemma cf_cases_agree log1 log2 a c :
  nrows log1 = nrows log2 →
  df_data log1 !! c = df_data log2 !! c →
  df_data log1 !! a = df_data log2 !! a →
  cf_cases log1 a c = cf_cases log2 a c.
Proof.
  intros Hn Hc Ha. unfold cf_cases. apply for_each_ext.
  apply Forall2_same_length_lookup_2; [by rewrite !length_iterrows|].
  intros i it1 it2 H1 H2 s. unfold cf_row.
  rewrite (getitem_iterrows _ _ _ c H1), (getitem_iterrows _ _ _ c H2), Hc.
  by rewrite (getitem_iterrows _ _ _ a H1), (getitem_iterrows _ _ _ a H2), Ha.
Qed.

Lemma cf_entropy_seq_raise_case_id log prefix a c rsc :
  0 < nrows log → has_column log c = false →
  cf_entropy_seq log prefix a c rsc = Raise (KeyError c).
Proof.
  intros Hn Hc%has_column_false. destruct (iterrows_first log Hn) as [it Hit].
  apply cf_entropy_seq_raise, (cf_cases_first_row _ _ _ it); [done|].
  apply cf_row_raise_case_id. by rewrite (getitem_iterrows _ _ _ _ Hit), Hc.
Qed.

Lemma cf_entropy_seq_raise_activity log prefix a c rsc :
  well_formed log → 0 < nrows log →
  has_column log c = true → has_column log a = false →
  cf_entropy_seq log prefix a c rsc = Raise (KeyError a).
Proof.
  intros Hwf Hn [cids Hc]%has_column_true Ha%has_column_false.
  destruct (iterrows_first log Hn) as [it Hit].
  apply cf_entropy_seq_raise, (cf_cases_first_row _ _ _ it); [done|].
  pose proof (well_formed_length _ _ _ Hwf Hc) as Hlen.
  destruct cids as [|v cids]; [simpl in Hlen; lia|].
  apply (cf_row_raise_activity _ _ _ _ v).
  - by rewrite (getitem_iterrows _ _ _ _ Hit), Hc.
  - by rewrite (getitem_iterrows _ _ _ _ Hit), Ha.
Qed.

(** X8. The only failures of [cf_entropy_seq] on a well-formed table are
    lookup failures, and they are decided by the column labels and by
    whether there is a row: the call raises [KeyError] for the case
    identifier column when the table has a row and lacks that column, raises
    [KeyError] for the activity column when the table has a row and the case
    identifier column but lacks the activity column, and returns
    otherwise. *)
Theorem cf_entropy_seq_raise_iff log prefix a c rsc e :
  well_formed log →
  (cf_entropy_seq log prefix a c rsc = Raise e ↔
   0 < nrows log ∧
   ((has_column log c = false ∧ e = KeyError c) ∨
    (has_column log c = true ∧ has_column log a = false ∧ e = KeyError a))).
Proof.
  intros Hwf. split.
  - intros Hr. destruct (decide (nrows log = 0)) as [Hz|Hnz].
    { by rewrite cf_entropy_seq_no_rows_value in Hr. }
    split; [lia|].
    destruct (has_column log c) eqn:Hc.
    + right. split; [done|]. destruct (has_column log a) eqn:Ha.
      * apply has_column_true in Hc as [cids Hc], Ha as [acts Ha].
        rewrite (cf_entropy_seq_cases _ _ _ _ _ _
                   (cf_cases_events _ _ _ _ _ Hwf Hc Ha)) in Hr. done.
      * rewrite cf_entropy_seq_raise_activity in Hr by (done || lia).
        by injection Hr as <-.
    + left. rewrite cf_entropy_seq_raise_case_id in Hr by (done || lia).
      by injection Hr as <-.
  - intros [Hn [[Hc ->]|(Hc & Ha & ->)]].
    + by apply cf_entropy_seq_raise_case_id.
    + by apply cf_entropy_seq_raise_activity.
Qed.

Lemma cf_entropy_seq_raise_iff_witness :
  cf_entropy_seq log_no_activity true "concept:name" "case:concept:name" false
  = Raise (KeyError "concept:name").
Proof.
  apply (cf_entropy_seq_raise_iff log_no_activity true "concept:name"
           "case:concept:name" false (KeyError "concept:name")).
  - apply (bool_decide_unpack _). by vm_compute.
  - split; [unfold nrows; simpl; lia|]. right. by split; [|split].
Defined.

(** X9. [cf_entropy_seq] reads nothing of the table but the two configured
    columns and the number of rows: on two tables that agree on these it
    behaves the same, whatever their index labels and other columns. *)
Theorem cf_entropy_seq_frame log1 log2 prefix a c rsc :
  nrows log1 = nrows log2 →
  df_data log1 !! c = df_data log2 !! c →
  df_data log1 !! a = df_data log2 !! a →
  cf_entropy_seq log1 prefix a c rsc = cf_entropy_seq log2 prefix a c rsc.
Proof.
  intros Hn Hc Ha. unfold cf_entropy_seq.
  by rewrite (cf_cases_agree log1 log2 a c Hn Hc Ha).
Qed.

Lemma cf_entropy_seq_frame_witness :
  cf_entropy_seq log_xy true "concept:name" "case:concept:name" true
  = cf_entropy_seq log_xy_more true "concept:name" "case:concept:name" true.
Proof. apply cf_entropy_seq_frame; reflexivity. Defined.

Section cf_more.
Variables (log : DataFrame) (activity_name case_id_name : string).
Variables (cids acts : list Cell).
Hypothesis Hwf : well_formed log.
Hypothesis Hcids : df_data log !! case_id_name = Some cids.
Hypothesis Hacts : df_data log !! activity_name = Some acts.

Lemma events_snd : (zip cids acts).*2 = acts.
Proof.
  pose proof (well_formed_length _ _ _ Hwf Hcids).
  pose proof (well_formed_length _ _ _ Hwf Hacts).
  apply snd_zip. lia.
Qed.

(** X10. The per-case sequences partition the activity column: no case has
    an empty sequence, no case identifier is keyed twice, and the sequences
    together hold every activity of the column exactly as often as the
    column does. *)
Theorem cf_cases_partition :
  ∃ cases,
    cf_cases log activity_name case_id_name = Ok cases ∧
    NoDup (od_keys cases) ∧
    Forall (fun tr => tr ≠ []) (od_values cases) ∧
    concat (od_values cases) ≡ₚ acts.
Proof.
  eexists. split; [by apply (cf_cases_events _ _ _ cids acts)|].
  split; [|split].
  - rewrite (proj1 (group_events_spec _)). apply first_seen_NoDup.
  - apply group_events_nonempty.
  - by rewrite group_events_concat, events_snd.
Qed.

End cf_more.

Lemma cf_cases_partition_witness :
  ∃ cases,
    cf_cases log_xy "concept:name" "case:concept:name" = Ok cases ∧
    NoDup (od_keys cases) ∧
    Forall (fun tr => tr ≠ []) (od_values cases) ∧
    concat (od_values cases) ≡ₚ VStr <$> ["x"; "y"; "x"; "y"; "x"; "y"].
Proof.
  refine (cf_cases_partition log_xy "concept:name" "case:concept:name"
            (VStr <$> ["A"; "B"; "A"; "B"; "A"; "B"])
            (VStr <$> ["x"; "y"; "x"; "y"; "x"; "y"])
            well_formed_log_xy _ _); reflexivity.
Defined.

(** ** [convert_and_clean] *)

Lemma rename_column_lookup old new df df' col :
  rename_column old new df = Ok df' → old ≠ new →
  df_index df' = df_index df ∧
  df_data df' !! col =
  if decide (col = old) then None
  else if decide (col = new)
       then match df_data df !! old with
            | Some vals => Some vals
            | None => df_data df !! new
            end
       else df_data df !! col.
Proof.
  unfold rename_column. intros Hr Hon.
  destruct (df_data df !! old) as [vals|] eqn:Hold.
  - destruct (has_column df new); [done|]. injection Hr as <-. simpl.
    split; [done|]. destruct (decide (col = old)) as [->|Hco].
    + by rewrite lookup_insert_ne, lookup_delete_eq by done.
    + destruct (decide (col = new)) as [->|Hcn].
      * by rewrite lookup_insert_eq.
      * by rewrite lookup_insert_ne, lookup_delete_ne by done.
  - injection Hr as <-. split; [done|].
    destruct (decide (col = old)) as [->|Hco]; [done|].
    by destruct (decide (col = new)) as [->|Hcn].
Qed.

Section normaliser_more.
Variable convert_log : DataFrame → DataFrame.
Variable parse_datetime : list Cell → string → option Z.

Lemma well_formed_finish df :
  well_formed df → well_formed (finish parse_datetime df).
Proof.
  intros Hwf col vals. rewrite finish_lookup, finish_nrows.
  case_decide.
  - intros (arg & Harg & ->)%fmap_Some. unfold to_datetime.
    rewrite length_fmap. by apply (well_formed_length df col).
  - by apply well_formed_length.
Qed.

(** X12. When [convert_and_clean] returns on a table without lifecycle
    column, the returned table has the same number of rows, the index
    0, 1, ..., the same column labels and, apart from the two timestamp
    columns, the same columns; a well-formed table stays well-formed. *)
Theorem convert_and_clean_frame df out :
  has_column df lifecycle_col = false →
  convert_and_clean convert_log parse_datetime df = Ok out →
  nrows out = nrows df ∧
  df_index out = Z.of_nat <$> seq 0 (nrows df) ∧
  (∀ col, has_column out col = has_column df col) ∧
  (∀ col, col ≠ start_col → col ≠ end_col →
          df_data out !! col = df_data df !! col) ∧
  (well_formed df → well_formed out).
Proof.
  intros Hl Hout. rewrite (convert_and_clean_plain_inv _ _ _ _ Hl Hout).
  split; [apply finish_nrows|]. split; [apply finish_index|].
  split; [intros col; apply has_column_finish|].
  split; [|apply well_formed_finish].
  intros col Hs He. rewrite finish_lookup, decide_False; [done|].
  by intros [?|?].
Qed.

(** X14. When [convert_and_clean] returns on a table without lifecycle
    column, [cf_entropy_seq] computes from the returned table what it
    computes from the given one, provided the activity and case identifier
    columns are not the timestamp columns. *)
Theorem cf_entropy_seq_convert_and_clean df out prefix a c rsc :
  has_column df lifecycle_col = false →
  a ≠ start_col → a ≠ end_col → c ≠ start_col → c ≠ end_col →
  convert_and_clean convert_log parse_datetime df = Ok out →
  cf_entropy_seq out prefix a c rsc = cf_entropy_seq df prefix a c rsc.
Proof.
  intros Hl Has Hae Hcs Hce Hout.
  rewrite (convert_and_clean_plain_inv _ _ _ _ Hl Hout).
  unfold cf_entropy_seq. rewrite (cf_cases_agree _ df a c); [done | ..].
  - apply finish_nrows.
  - rewrite finish_lookup, decide_False; [done|]. by intros [?|?].
  - rewrite finish_lookup, decide_False; [done|]. by intros [?|?].
Qed.

(** X15. When the lifecycle branch is taken and [convert_and_clean]
    returns, the returned table has as many rows as the table given by
    [convert_log], it has no column labelled [START] or [END], and the
    [START] and [END] columns of the converter's table are its parsed
    [start:timestamp] and [time:timestamp] columns. *)
Theorem convert_and_clean_lifecycle df out :
  has_column df lifecycle_col = true →
  convert_and_clean convert_log parse_datetime df = Ok out →
  nrows out = nrows (convert_log df) ∧
  has_column out "START" = false ∧
  has_column out "END" = false ∧
  (∀ vals, df_data (convert_log df) !! "START" = Some vals →
           df_data out !! start_col = Some (to_datetime parse_datetime vals)) ∧
  (∀ vals, df_data (convert_log df) !! "END" = Some vals →
           df_data out !! end_col = Some (to_datetime parse_datetime vals)).
Proof.
  intros Hl. unfold convert_and_clean, lifecycle_branch. rewrite Hl.
  destruct (rename_column "START" start_col (convert_log df)) as [d1|] eqn:H1;
    simpl; [|done].
  destruct (rename_column "END" end_col d1) as [d|] eqn:H2; simpl; [|done].
  intros [= <-].
  assert ("START" ≠ start_col) as Hs by done.
  assert ("END" ≠ end_col) as He by done.
  pose proof (fun col => rename_column_lookup _ _ _ _ col H1 Hs) as L1.
  pose proof (fun col => rename_column_lookup _ _ _ _ col H2 He) as L2.
  split; [|split; [|split; [|split]]].
  - rewrite finish_nrows. unfold nrows.
    by rewrite (proj1 (L2 "START")), (proj1 (L1 "START")).
  - rewrite has_column_finish. apply has_column_false.
    rewrite (proj2 (L2 "START")). simpl. by rewrite (proj2 (L1 "START")).
  - rewrite has_column_finish. apply has_column_false.
    by rewrite (proj2 (L2 "END")).
  - intros vals Hv. rewrite finish_lookup, decide_True by (by left).
    rewrite (proj2 (L2 start_col)). simpl.
    rewrite (proj2 (L1 start_col)). simpl. by rewrite Hv.
  - intros vals Hv. rewrite finish_lookup, decide_True by (by right).
    rewrite (proj2 (L2 end_col)). simpl.
    rewrite (proj2 (L1 "END")). simpl. by rewrite Hv.
Qed.

End normaliser_more.

Lemma convert_and_clean_log_plain :
  convert_and_clean convert_log_demo parse_demo log_plain = Ok log_plain_clean.
Proof. by vm_compute. Defined.

Lemma convert_and_clean_frame_witness :
  nrows log_plain_clean = 4 ∧
  df_index log_plain_clean = [0; 1; 2; 3]%Z ∧
  df_data log_plain_clean !! "concept:name" = Some (VStr <$> ["x"; "y"; "x"; "x"]).
Proof.
  destruct (convert_and_clean_frame convert_log_demo parse_demo log_plain
              log_plain_clean eq_refl convert_and_clean_log_plain)
    as (Hn & Hi & _ & Hcols & _).
  split; [exact Hn|]. split; [exact Hi|].
  rewrite (Hcols "concept:name"); [reflexivity | discriminate | discriminate].
Defined.

Lemma cf_entropy_seq_convert_and_clean_witness :
  cf_entropy_seq log_plain_clean true "concept:name" "case:concept:name" true
  = cf_entropy_seq log_plain true "concept:name" "case:concept:name" true.
Proof.
  apply (cf_entropy_seq_convert_and_clean convert_log_demo parse_demo);
    [reflexivity | discriminate.. | exact convert_and_clean_log_plain].
Defined.

Lemma convert_and_clean_lifecycle_witness :
  has_column
    (mkDataFrame [0; 1; 2]%Z
       {[ "case:concept:name" := VStr <$> ["A"; "A"; "B"];
          "start:timestamp" := [VTime 0; VNaT; VNaT];
          "time:timestamp" := [VTime 0; VNaT; VNaT] ]}) "START" = false ∧
  df_data (convert_log_pairs log_times) !! "START"
  = Some [VStr "1970-01-01"; VStr "not a date"; VNaT].
Proof.
  split; [|reflexivity].
  refine (proj1 (proj2 (convert_and_clean_lifecycle convert_log_pairs parse_demo
                          log_times _ eq_refl _))).
  by vm_compute.
Defined.

(** ** Cases of a single event *)

Lemma get_all_prefixes_singletons {A} (sequences : list (list A)) :
  Forall (fun s => length s = 1) sequences →
  get_all_prefixes sequences = sequences.
Proof.
  intros Hall. rewrite get_all_prefixes_concat.
  induction Hall as [|s sequences Hs _ IH]; csimpl; [done|].
  rewrite IH. destruct s as [|x [|y s]]; simplify_eq/=. done.
Qed.

Lemma group_events_singletons events :
  NoDup events.*1 →
  Forall (fun tr => length tr = 1) (od_values (group_events events)).
Proof.
  induction events as [|e events IH] using rev_ind; [constructor|].
  rewrite fmap_app. simpl. intros (Hnd & Hni & _)%NoDup_app.
  rewrite group_events_snoc.
  assert (e.1 ∉ od_keys (group_events events)) as Hnk.
  { rewrite (proj1 (group_events_spec _)), first_seen_elem_of.
    intros Hin. apply (Hni _ Hin). apply list_elem_of_singleton. done. }
  rewrite (cases_append_new _ _ _ Hnk).
  unfold od_values in *. rewrite fmap_app. apply Forall_app. split; [by apply IH|].
  by repeat constructor.
Qed.

(** X16. When no case identifier occurs twice in the case identifier
    column, every case has a single event, prefix expansion changes
    nothing, and [cf_entropy_seq] returns the same at prefix level as at
    trace level. *)
Theorem cf_entropy_seq_single_events log a c cids acts rsc :
  well_formed log →
  df_data log !! c = Some cids →
  df_data log !! a = Some acts →
  NoDup cids →
  cf_entropy_seq log true a c rsc = cf_entropy_seq log false a c rsc.
Proof.
  intros Hwf Hc Ha Hnd.
  pose proof (cf_cases_events _ _ _ _ _ Hwf Hc Ha) as Hcases.
  unfold cf_entropy_seq. rewrite Hcases. simpl.
  rewrite get_all_prefixes_singletons; [done|].
  apply group_events_singletons. rewrite fst_zip; [done|].
  rewrite (well_formed_length _ _ _ Hwf Hc), (well_formed_length _ _ _ Hwf Ha). lia.
Qed.

Lemma cf_entropy_seq_single_events_witness :
  cf_entropy_seq log_single true "concept:name" "case:concept:name" true
  = cf_entropy_seq log_single false "concept:name" "case:concept:name" true.
Proof.
  apply (cf_entropy_seq_single_events log_single _ _
           (VStr <$> ["A"; "B"; "C"]) (VStr <$> ["x"; "y"; "x"])).
  - apply (bool_decide_unpack _). by vm_compute.
  - reflexivity.
  - reflexivity.
  - apply (bool_decide_unpack _). by vm_compute.
Defined.
